(** * HC-SR04 stand-off controller (week01/standoff/src/hc-sr04.cpp)

    A shallow embedding of the echo-capture state machine, the ping
    scheduler, the rolling-window filter and the proportional controller of
    the Romi 32U4 sketch, followed by the properties its specification
    states about them.

    Target: ATmega32U4 compiled with avr-gcc.  On that target [int] and
    [unsigned int] are 16 bits wide, [uint32_t] is [unsigned long], and
    [float] and [double] are both IEEE 754 binary32. *)

From Stdlib Require Import ZArith List Lia Bool QArith Qabs.
From Stdlib Require Import Sorting.Permutation Sorting.Sorted.
From Stdlib Require Import Floats.SpecFloat.
Import ListNotations.
Open Scope Z_scope.

(** ** Machine integers *)

Module AVR.

(** Unsigned [bits]-wide wrap-around. *)
Definition wrap (bits z : Z) : Z := z mod 2 ^ bits.

Definition u16 (z : Z) : Z := wrap 16 z.
Definition u32 (z : Z) : Z := wrap 32 z.

(** Conversion to the 16-bit signed [int] (two's complement, the low 16
    bits are kept). *)
Definition to_int (z : Z) : Z :=
  let r := u16 z in if r <? 32768 then r else r - 65536.

End AVR.

(** ** binary32 floating point

    Arithmetic is the Standard Library's executable IEEE 754 specification
    at precision 24 and maximal exponent 128, round to nearest even. *)

Module Float32.

Definition prec : Z := 24.
Definition emax : Z := 128.

Definition float := spec_float.

(** Integer to float conversion (rounds when the integer needs more than
    24 significant bits). *)
Definition of_Z (z : Z) : float := binary_normalize prec emax z 0 false.

Definition sub : float -> float -> float := SFsub prec emax.
Definition mul : float -> float -> float := SFmul prec emax.
Definition div : float -> float -> float := SFdiv prec emax.
Definition opp : float -> float := SFopp.
Definition ltb : float -> float -> bool := SFltb.
Definition leb : float -> float -> bool := SFleb.

(** Truncation toward zero; infinities and NaN, for which the C
    conversion is undefined, are sent to 0. *)
Definition trunc (x : float) : Z :=
  match x with
  | S754_finite s m e => cond_Zopp s (Z.shiftl (Zpos m) e)
  | _ => 0
  end.

(** Conversion to [uint32_t]. *)
Definition to_u32 (x : float) : Z := AVR.u32 (trunc x).

Definition is_finite (x : float) : bool :=
  match x with
  | S754_zero _ | S754_finite _ _ _ => true
  | _ => false
  end.

(** The rational number a finite float denotes. *)
Definition to_Q (x : float) : Q :=
  match x with
  | S754_finite s m e =>
      if 0 <=? e then inject_Z (cond_Zopp s (Zpos m * 2 ^ e))
      else Qmake (cond_Zopp s (Zpos m)) (2 ^ Z.to_pos (- e))
  | _ => 0%Q
  end.

End Float32.

Definition float : Set := Float32.float.

(** ** Program state *)

(** [enum PULSE_STATE]. *)
Inductive PULSE_STATE : Set :=
| PLS_IDLE
| PLS_WAITING_LOW
| PLS_WAITING_HIGH
| PLS_CAPTURED.

Definition PULSE_STATE_eqb (a b : PULSE_STATE) : bool :=
  match a, b with
  | PLS_IDLE, PLS_IDLE
  | PLS_WAITING_LOW, PLS_WAITING_LOW
  | PLS_WAITING_HIGH, PLS_WAITING_HIGH
  | PLS_CAPTURED, PLS_CAPTURED => true
  | _, _ => false
  end.

(** The globals of the sketch and the three Timer 3 registers it writes. *)
Record Globals : Set := mkGlobals {
  pulseStart : Z;              (* volatile uint16_t *)
  pulseEnd : Z;                (* volatile uint16_t *)
  pulseState : PULSE_STATE;    (* volatile PULSE_STATE *)
  lastPing : Z;                (* uint32_t *)
  filterValues : list Z;       (* uint32_t [5] *)
  currIndex : Z;               (* int *)
  TCCR3A : Z;
  TCCR3B : Z;
  TIMSK3 : Z;
  TIFR3 : Z
}.

Definition trigPin : Z := 12.
Definition PING_INTERVAL : Z := 100.

Definition set_pulseStart (v : Z) (g : Globals) : Globals :=
  mkGlobals v (pulseEnd g) (pulseState g) (lastPing g) (filterValues g)
            (currIndex g) (TCCR3A g) (TCCR3B g) (TIMSK3 g) (TIFR3 g).

Definition set_pulseEnd (v : Z) (g : Globals) : Globals :=
  mkGlobals (pulseStart g) v (pulseState g) (lastPing g) (filterValues g)
            (currIndex g) (TCCR3A g) (TCCR3B g) (TIMSK3 g) (TIFR3 g).

Definition set_pulseState (v : PULSE_STATE) (g : Globals) : Globals :=
  mkGlobals (pulseStart g) (pulseEnd g) v (lastPing g) (filterValues g)
            (currIndex g) (TCCR3A g) (TCCR3B g) (TIMSK3 g) (TIFR3 g).

Definition set_lastPing (v : Z) (g : Globals) : Globals :=
  mkGlobals (pulseStart g) (pulseEnd g) (pulseState g) v (filterValues g)
            (currIndex g) (TCCR3A g) (TCCR3B g) (TIMSK3 g) (TIFR3 g).

Definition set_filter (w : list Z) (i : Z) (g : Globals) : Globals :=
  mkGlobals (pulseStart g) (pulseEnd g) (pulseState g) (lastPing g) w
            i (TCCR3A g) (TCCR3B g) (TIMSK3 g) (TIFR3 g).

Definition set_TCCR3A (v : Z) (g : Globals) : Globals :=
  mkGlobals (pulseStart g) (pulseEnd g) (pulseState g) (lastPing g)
            (filterValues g) (currIndex g) v (TCCR3B g) (TIMSK3 g) (TIFR3 g).

Definition set_TCCR3B (v : Z) (g : Globals) : Globals :=
  mkGlobals (pulseStart g) (pulseEnd g) (pulseState g) (lastPing g)
            (filterValues g) (currIndex g) (TCCR3A g) v (TIMSK3 g) (TIFR3 g).

Definition set_TIMSK3 (v : Z) (g : Globals) : Globals :=
  mkGlobals (pulseStart g) (pulseEnd g) (pulseState g) (lastPing g)
            (filterValues g) (currIndex g) (TCCR3A g) (TCCR3B g) v (TIFR3 g).

Definition set_TIFR3 (v : Z) (g : Globals) : Globals :=
  mkGlobals (pulseStart g) (pulseEnd g) (pulseState g) (lastPing g)
            (filterValues g) (currIndex g) (TCCR3A g) (TCCR3B g) (TIMSK3 g) v.

(** What the sketch does to the outside world. *)
Inductive Output : Set :=
| DigitalWrite (pin : Z) (high : bool)
| DelayMicroseconds (us : Z)
| SetEfforts (left right : float)
    (* motors.setEfforts(speed, speed), the arguments as passed *)
| Telemetry (ms counts us : Z) (distancePulse filteredDistance speed : float).
    (* the tab-separated Serial line *)

(** ** Array access *)

Definition array_get (a : list Z) (i : Z) : Z := nth (Z.to_nat i) a 0.

Fixpoint replace_nth (n : nat) (v : Z) (a : list Z) : list Z :=
  match a, n with
  | [], _ => []
  | _ :: t, O => v :: t
  | h :: t, S n' => h :: replace_nth n' v t
  end.

(** [a[i] = v].  A store outside the array is undefined in C; it is a
    no-op here. *)
Definition array_set (a : list Z) (i v : Z) : list Z :=
  if (0 <=? i) && (i <? Z.of_nat (length a))
  then replace_nth (Z.to_nat i) v a else a.

(** ** The sketch *)

(** Static initialisers of the globals; the Timer 3 registers hold whatever
    the Arduino core left in them. *)
Definition boot (tccr3a tccr3b timsk3 tifr3 : Z) : Globals :=
  mkGlobals 0 0 PLS_IDLE 0 [0; 0; 0; 0; 0] 0 tccr3a tccr3b timsk3 tifr3.

(** [setup()], entered when [millis()] reads [now].  The Serial and pinMode
    calls do not touch the globals. *)
Definition setup (now : Z) (g : Globals) : Globals :=
  set_lastPing (AVR.u32 now) (set_TCCR3A 0 g).

(** [CommandPing], first part: between [cli()] and [sei()].  Writing a one
    to a bit of TIFR3 clears that flag. *)
Definition arm_capture (g : Globals) : Globals :=
  set_TCCR3B (Z.lor (TCCR3B g) 0xC0)
    (set_TIMSK3 (Z.lor (TIMSK3 g) 0x20)
       (set_TIFR3 (Z.ldiff (TIFR3 g) 0x20) g)).

(** [CommandPing], last part: the 10 us pulse on TRIG. *)
Definition trigger_pulse (pin : Z) : list Output :=
  [DigitalWrite pin true; DelayMicroseconds 10; DigitalWrite pin false].

Definition CommandPing (pin : Z) (g : Globals) : Globals * list Output :=
  (set_pulseState PLS_WAITING_LOW (arm_capture g), trigger_pulse pin).

(** [ISR(TIMER3_CAPT_vect)], run with the input capture register ICR3
    holding [icr]. *)
Definition ISR_TIMER3_CAPT (icr : Z) (g : Globals) : Globals :=
  match pulseState g with
  | PLS_WAITING_LOW =>
      set_pulseState PLS_WAITING_HIGH
        (set_TCCR3B (Z.land (TCCR3B g) 0xBF)
           (set_pulseStart (AVR.u16 icr) g))
  | PLS_WAITING_HIGH =>
      set_pulseState PLS_CAPTURED (set_pulseEnd (AVR.u16 icr) g)
  | _ => g
  end.

(** [cmpfunc]: the difference of the two [uint32_t] operands, returned as a
    16-bit [int]. *)
Definition cmpfunc (a b : Z) : Z := AVR.to_int (AVR.u32 (a - b)).

(** [mean]: a [uint32_t] sum, divided by 5.0 in floating point and
    truncated back to [uint32_t]. *)
Definition mean (values : list Z) : Z :=
  let sum :=
    AVR.u32 (AVR.u32 (AVR.u32 (AVR.u32
      (array_get values 0 + array_get values 1)
       + array_get values 2)
       + array_get values 3)
       + array_get values 4) in
  Float32.to_u32 (Float32.div (Float32.of_Z sum) (Float32.of_Z 5)).

(** The condition of the first [if] of [loop()]. *)
Definition ping_due (currTime : Z) (g : Globals) : bool :=
  (PING_INTERVAL <=? AVR.u32 (currTime - lastPing g))
  && PULSE_STATE_eqb (pulseState g) PLS_IDLE.

(** [uint16_t pulseLengthTimerCounts = pulseEnd - pulseStart]. *)
Definition pulseLengthTimerCounts (g : Globals) : Z :=
  AVR.u16 (pulseEnd g - pulseStart g).

(** [uint32_t pulseLengthUS = pulseLengthTimerCounts * 4]: the product of a
    [uint16_t] and an [int] is a 16-bit [unsigned int], widened afterwards. *)
Definition pulseLengthUS (counts : Z) : Z := AVR.u16 (counts * 4).

(** [pulseLengthUS / 58.0], also used for [mean(filterValues) / 58.0]. *)
Definition distance_cm (us : Z) : float :=
  Float32.div (Float32.of_Z us) (Float32.of_Z 58).

(** [currIndex += (currIndex == 4) ? -4 : 1]. *)
Definition next_index (i : Z) : Z :=
  AVR.to_int (i + (if i =? 4 then -4 else 1)).

(** Arduino's [abs] is the macro [((x)>0?(x):-(x))]. *)
Definition abs_macro (x : float) : float :=
  if Float32.ltb (Float32.of_Z 0) x then x else Float32.opp x.

Definition kp : float := Float32.of_Z 10.

(** [speed = kp * err], then the threshold [if(abs(speed) <= 5) speed = 0]. *)
Definition speed_of_err (err : float) : float :=
  let speed := Float32.mul kp err in
  if Float32.leb (abs_macro speed) (Float32.of_Z 5)
  then Float32.of_Z 0 else speed.

(** [err = filteredDistance - 20.0] and the speed computed from it. *)
Definition control (filteredDistance : float) : float :=
  speed_of_err (Float32.sub filteredDistance (Float32.of_Z 20)).

(** Body of the second [if] of [loop()] after [pulseState = PLS_IDLE]; the
    last [millis()] reads [now]. *)
Definition process_sample (now : Z) (g : Globals) : Globals * list Output :=
  let counts := pulseLengthTimerCounts g in
  let us := pulseLengthUS counts in
  let distancePulse := distance_cm us in
  let g' :=
    set_filter (array_set (filterValues g) (currIndex g) us)
               (next_index (currIndex g)) g in
  let filteredDistance := distance_cm (mean (filterValues g')) in
  let speed := control filteredDistance in
  (g', [SetEfforts speed speed;
        Telemetry (AVR.u32 now) counts us distancePulse filteredDistance speed]).

(** First [if] of [loop()]. *)
Definition loop_schedule (now : Z) (g : Globals) : Globals * list Output :=
  let currTime := AVR.u32 now in
  if ping_due currTime g
  then CommandPing trigPin (set_lastPing currTime g)
  else (g, []).

(** Second [if] of [loop()]. *)
Definition loop_consume (now : Z) (g : Globals) : Globals * list Output :=
  match pulseState g with
  | PLS_CAPTURED => process_sample now (set_pulseState PLS_IDLE g)
  | _ => (g, [])
  end.

(** One pass through [loop()] with no interrupt served meanwhile.  [now] is
    the number of milliseconds since reset, the same at both calls of
    [millis()], which returns it modulo 2^32. *)
Definition loop (now : Z) (g : Globals) : Globals * list Output :=
  let (g1, o1) := loop_schedule now g in
  let (g2, o2) := loop_consume now g1 in
  (g2, o1 ++ o2).

(** ** [loop()] interleaved with the capture interrupt

    The interrupt can be served between any two statements of [loop()] that
    are not inside a [cli()]/[sei()] or [noInterrupts()]/[interrupts()]
    pair.  The program counter below cuts [loop()] at every access to the
    shared [pulseState]; what lies between two cuts touches only data owned
    by the main loop, or runs with interrupts masked. *)

Inductive PC : Set :=
| AtSchedule     (* before the first [if] *)
| InPingArmed    (* in CommandPing, after [sei()] *)
| InPingPulse    (* in CommandPing, after [pulseState = PLS_WAITING_LOW] *)
| AtCheck        (* before the second [if] *)
| InConsume      (* the second [if] was taken *)
| InProcess.     (* after [pulseState = PLS_IDLE] *)

Record Config : Set := mkConfig { pc : PC; mem : Globals }.

Inductive Event : Set :=
| Interrupt (icr : Z)   (* TIMER3_CAPT is served, ICR3 = icr *)
| Main (now : Z).       (* loop() runs up to its next cut, at time now (ms) *)

Definition main_step (now : Z) (c : Config) : Config * list Output :=
  let g := mem c in
  match pc c with
  | AtSchedule =>
      let currTime := AVR.u32 now in
      if ping_due currTime g
      then (mkConfig InPingArmed (arm_capture (set_lastPing currTime g)), [])
      else (mkConfig AtCheck g, [])
  | InPingArmed =>
      (mkConfig InPingPulse (set_pulseState PLS_WAITING_LOW g), [])
  | InPingPulse =>
      (mkConfig AtCheck g, trigger_pulse trigPin)
  | AtCheck =>
      match pulseState g with
      | PLS_CAPTURED => (mkConfig InConsume g, [])
      | _ => (mkConfig AtSchedule g, [])
      end
  | InConsume =>
      (mkConfig InProcess (set_pulseState PLS_IDLE g), [])
  | InProcess =>
      let (g', o) := process_sample now g in (mkConfig AtSchedule g', o)
  end.

(** The interrupt is served whatever the Timer 3 registers say: every
    behaviour of the hardware is among the runs considered. *)
Definition step (c : Config) (e : Event) : Config * list Output :=
  match e with
  | Interrupt icr => (mkConfig (pc c) (ISR_TIMER3_CAPT icr (mem c)), [])
  | Main now => main_step now c
  end.

(** The step at which [loop()] calls [CommandPing]. *)
Definition calls_CommandPing (c : Config) (e : Event) : bool :=
  match e, pc c with
  | Main now, AtSchedule => ping_due (AVR.u32 now) (mem c)
  | _, _ => false
  end.

(** The step at which the interrupt completes a capture. *)
Definition completes_capture (c : Config) (e : Event) : bool :=
  match e, pulseState (mem c) with
  | Interrupt _, PLS_WAITING_HIGH => true
  | _, _ => false
  end.

Definition motor_commands (o : list Output) : nat :=
  length (filter (fun x => match x with SetEfforts _ _ => true | _ => false end) o).

(** What an observer of a run records. *)
Record Stats : Set := mkStats {
  pings : nat;        (* calls of CommandPing *)
  captures : nat;     (* captures completed by the interrupt *)
  changes : nat;      (* steps that changed pulseState *)
  pinged_at : Z;      (* time of the latest CommandPing, or of setup *)
  clock : Z;          (* time of the latest Main event, or of setup *)
  log : list Output   (* everything output so far *)
}.

Definition observe (st : Stats) (c : Config) (e : Event)
                   (c' : Config) (o : list Output) : Stats :=
  let ping := calls_CommandPing c e in
  mkStats
    (pings st + (if ping then 1 else 0))
    (captures st + (if completes_capture c e then 1 else 0))
    (changes st +
       (if PULSE_STATE_eqb (pulseState (mem c)) (pulseState (mem c'))
        then 0 else 1))
    (match e with Main now => if ping then now else pinged_at st
                | _ => pinged_at st end)
    (match e with Main now => now | _ => clock st end)
    (log st ++ o).

Definition observed_step (sc : Stats * Config) (e : Event) : Stats * Config :=
  let (st, c) := sc in
  let (c', o) := step c e in
  (observe st c e c' o, c').

Definition run (sc : Stats * Config) (evs : list Event) : Stats * Config :=
  fold_left observed_step evs sc.

(** The state [setup()] leaves at time [t0], with [loop()] about to start. *)
Definition init (regs : Z * Z * Z * Z) (t0 : Z) : Stats * Config :=
  let '(a, b, m, f) := regs in
  (mkStats 0 0 0 t0 t0 [], mkConfig AtSchedule (setup t0 (boot a b m f))).

(** No [Main] event is earlier than the one before it, nor than [t]. *)
Fixpoint chronological (t : Z) (evs : list Event) : bool :=
  match evs with
  | [] => true
  | Interrupt _ :: evs' => chronological t evs'
  | Main now :: evs' => (t <=? now) && chronological now evs'
  end.

(** Position of a state in the cycle of the capture state machine. *)
Definition phase (s : PULSE_STATE) : nat :=
  match s with
  | PLS_IDLE => 0
  | PLS_WAITING_LOW => 1
  | PLS_WAITING_HIGH => 2
  | PLS_CAPTURED => 3
  end.

Definition successor (s : PULSE_STATE) : PULSE_STATE :=
  match s with
  | PLS_IDLE => PLS_WAITING_LOW
  | PLS_WAITING_LOW => PLS_WAITING_HIGH
  | PLS_WAITING_HIGH => PLS_CAPTURED
  | PLS_CAPTURED => PLS_IDLE
  end.

(** ** [median] and the C library's [qsort]

    [qsort] is not part of the sketch.  [median] takes it as a parameter,
    and the properties below assume of it what the C standard promises: for
    a comparison function that is consistent on the elements of the array,
    the array is permuted into ascending order. *)

Definition consistent (cmp : Z -> Z -> Z) (l : list Z) : Prop :=
  (forall a b, In a l -> In b l -> Z.sgn (cmp b a) = - Z.sgn (cmp a b)) /\
  (forall a b c, In a l -> In b l -> In c l ->
                 cmp a b <= 0 -> cmp b c <= 0 -> cmp a c <= 0).

Definition ascending (cmp : Z -> Z -> Z) : list Z -> Prop :=
  Sorted (fun a b => cmp a b <= 0).

Definition qsort_contract (qsort : (Z -> Z -> Z) -> list Z -> list Z) : Prop :=
  forall cmp l, consistent cmp l ->
                Permutation l (qsort cmp l) /\ ascending cmp (qsort cmp l).

(** [median(values)]: [qsort(values, 5, sizeof(uint32_t), cmpfunc)] on the
    caller's array, then [values[2]].  The result is the array as the call
    leaves it, and the value returned. *)
Definition median (qsort : (Z -> Z -> Z) -> list Z -> list Z)
                  (values : list Z) : list Z * Z :=
  let values' := qsort cmpfunc (firstn 5 values) ++ skipn 5 values in
  (values', array_get values' 2).

(** An insertion sort, as one [qsort] that meets the contract. *)
Fixpoint insert_by (cmp : Z -> Z -> Z) (x : Z) (l : list Z) : list Z :=
  match l with
  | [] => [x]
  | y :: l' => if cmp x y <=? 0 then x :: l else y :: insert_by cmp x l'
  end.

Definition isort (cmp : Z -> Z -> Z) (l : list Z) : list Z :=
  fold_right (insert_by cmp) [] l.

(** Values on which the 16-bit result of [cmpfunc] is the difference. *)
Definition small (l : list Z) : Prop := forall v, In v l -> 0 <= v < 32768.

(** ** The dead band in the specification's words

    The output is forced to zero when its absolute value is at most 5. *)
Definition dead_band (output : float) : float :=
  if SFleb (SFabs output) (Float32.of_Z 5) then Float32.of_Z 0 else output.

(** A float in canonical binary32 form, as every arithmetic result is. *)
Definition valid (x : float) : bool :=
  valid_binary Float32.prec Float32.emax x.

(** The literal [0.3]. *)
Definition three_tenths : float :=
  Float32.div (Float32.of_Z 3) (Float32.of_Z 10).

(** ** A sample run

    One full cycle: [loop()] commands a ping at 100 ms, the echo rises at
    count 1000 and falls at count 1500, and [loop()] consumes the sample at
    101 ms. *)
Definition one_cycle : list Event :=
  [Main 100; Main 100; Main 100; Interrupt 1000; Interrupt 1500;
   Main 101; Main 101; Main 101].

(** ** Invariants of the interleaved runs *)

(** What each cut of [loop()] knows about [pulseState]. *)
Definition pc_agrees (c : Config) : Prop :=
  match pc c with
  | InPingArmed | InProcess => pulseState (mem c) = PLS_IDLE
  | InConsume => pulseState (mem c) = PLS_CAPTURED
  | _ => True
  end.

(** The transitions of [pulseState] a step may make, with the place of the
    sketch that makes them. *)
Definition legal_step (c : Config) (e : Event) (c' : Config) : Prop :=
  let s := pulseState (mem c) in
  let s' := pulseState (mem c') in
  match e with
  | Interrupt _ =>
      match s with
      | PLS_WAITING_LOW => s' = PLS_WAITING_HIGH
      | PLS_WAITING_HIGH => s' = PLS_CAPTURED
      | _ => s' = s
      end
  | Main _ =>
      match pc c with
      | InPingArmed => s = PLS_IDLE /\ s' = PLS_WAITING_LOW
      | InConsume => s = PLS_CAPTURED /\ s' = PLS_IDLE
      | _ => s' = s
      end
  end.

(** Bit 5 of TIMSK3 enables the capture interrupt, and bit 6 of TCCR3B
    selects the edge that triggers it: set for rising, clear for falling.
    While an echo is awaited the hardware is armed for the edge the state
    machine waits for. *)
Definition armed_for (rising : bool) (g : Globals) : Prop :=
  Z.testbit (TIMSK3 g) 5 = true /\ Z.testbit (TCCR3B g) 6 = rising.

Definition capture_armed (c : Config) : Prop :=
  match pc c with
  | InPingArmed => armed_for true (mem c)
  | _ => True
  end /\
  match pulseState (mem c) with
  | PLS_WAITING_LOW => armed_for true (mem c)
  | PLS_WAITING_HIGH => armed_for false (mem c)
  | _ => True
  end.

Definition hardware_ok (sc : Stats * Config) : Prop :=
  pc_agrees (snd sc) /\ capture_armed (snd sc).

(** Pings commanded whose echo has not been captured yet: 0 or 1. *)
Definition in_flight (c : Config) : nat :=
  match pc c, pulseState (mem c) with
  | InPingArmed, _ => 1
  | _, PLS_WAITING_LOW | _, PLS_WAITING_HIGH => 1
  | _, _ => 0
  end.

(** Captures completed and not yet turned into a motor command: 0 or 1. *)
Definition pending (c : Config) : nat :=
  match pc c, pulseState (mem c) with
  | InProcess, _ => 1
  | _, PLS_CAPTURED => 1
  | _, _ => 0
  end.

Definition counts_agree (sc : Stats * Config) : Prop :=
  let (st, c) := sc in
  pc_agrees c /\
  phase (pulseState (mem c)) = (changes st mod 4)%nat /\
  pings st = (captures st + in_flight c)%nat /\
  (motor_commands (log st) + pending c)%nat = captures st.

Definition window_ok (sc : Stats * Config) : Prop :=
  let (st, c) := sc in
  let k := motor_commands (log st) in
  currIndex (mem c) = Z.of_nat (k mod 5) /\
  length (filterValues (mem c)) = 5%nat /\
  (forall j, (k <= j < 5)%nat -> nth j (filterValues (mem c)) 0 = 0).

Definition schedule_ok (sc : Stats * Config) : Prop :=
  let (st, c) := sc in
  lastPing (mem c) = AVR.u32 (pinged_at st) /\ pinged_at st <= clock st.

(** ** Properties *)

Section Machine_integers.



Lemma u16_small z : 0 <= z < 65536 -> AVR.u16 z = z.
Proof. intros H. unfold AVR.u16, AVR.wrap. apply Z.mod_small. exact H. Qed.


Lemma u16_sub_u16 a b : AVR.u16 (AVR.u16 a - AVR.u16 b) = AVR.u16 (a - b).
Proof.
  unfold AVR.u16, AVR.wrap. rewrite <- Zminus_mod. reflexivity.
Qed.

Lemma u32_sub_u32 a b : AVR.u32 (AVR.u32 a - AVR.u32 b) = AVR.u32 (a - b).
Proof.
  unfold AVR.u32, AVR.wrap. rewrite <- Zminus_mod. reflexivity.
Qed.

Lemma u32_le z : 0 <= z -> AVR.u32 z <= z.
Proof.
  intros H. unfold AVR.u32, AVR.wrap. apply Z.mod_le; [exact H | reflexivity].
Qed.

Lemma to_int_small z : -32768 <= z < 32768 -> AVR.to_int z = z.
Proof.
  intros H. unfold AVR.to_int, AVR.u16, AVR.wrap.
  destruct (Z_lt_le_dec z 0) as [Hneg | Hpos].
  - replace (z mod 2 ^ 16) with (z + 65536).
    + destruct (Z.ltb_spec (z + 65536) 32768); lia.
    + apply Z.mod_unique with (q := -1); change (2 ^ 16) with 65536; lia.
  - rewrite Z.mod_small by (change (2 ^ 16) with 65536; lia).
    destruct (Z.ltb_spec z 32768); lia.
Qed.

End Machine_integers.

Section Binary32.

Lemma digits2_pos_size m : digits2_pos m = Pos.size m.
Proof. induction m; simpl; congruence. Qed.

Lemma digits2_bounds m :
  2 ^ (Zpos (digits2_pos m) - 1) <= Zpos m < 2 ^ Zpos (digits2_pos m).
Proof.
  rewrite digits2_pos_size. split.
  - pose proof (Pos.size_le m) as H.
    assert (H' : 2 ^ Zpos (Pos.size m) <= 2 * Zpos m).
    { change (2 * Zpos m) with (Zpos m~0). rewrite <- Pos2Z.inj_pow.
      apply Pos2Z.pos_le_pos. exact H. }
    replace (Zpos (Pos.size m)) with (Z.succ (Zpos (Pos.size m) - 1)) in H'
      by lia.
    rewrite Z.pow_succ_r in H' by lia. lia.
  - pose proof (Pos.size_gt m) as H.
    change 2 with (Zpos 2). rewrite <- Pos2Z.inj_pow.
    apply Pos2Z.pos_lt_pos. exact H.
Qed.

(** A canonical mantissa has at most 24 bits, and exactly 24 above the
    subnormal range. *)
Lemma valid_finite_bounds s m e :
  valid (S754_finite s m e) = true ->
  (e < -21 -> Zpos m < 2 ^ 24) /\ (-21 < e -> 2 ^ 23 <= Zpos m).
Proof.
  unfold valid, valid_binary, bounded, canonical_mantissa, fexp, emin,
    Zdigits2.
  intros H. apply andb_true_iff in H. destruct H as [H _].
  apply Z.eqb_eq in H.
  pose proof (digits2_bounds m) as [Hlo Hhi].
  unfold Float32.prec, Float32.emax in H.
  split; intros He.
  - assert (Hd : Zpos (digits2_pos m) <= 24) by lia.
    eapply Z.lt_le_trans; [exact Hhi |].
    apply Z.pow_le_mono_r; lia.
  - assert (Hd : Zpos (digits2_pos m) = 24) by lia.
    rewrite Hd in Hlo. exact Hlo.
Qed.

Lemma five_repr : Float32.of_Z 5 = S754_finite false 10485760 (-21).
Proof. reflexivity. Qed.

Lemma Qabs_to_Q_finite s m e :
  Qabs (Float32.to_Q (S754_finite s m e)) =
  if 0 <=? e then inject_Z (Zpos m * 2 ^ e)
  else Qmake (Zpos m) (2 ^ Z.to_pos (- e)).
Proof.
  unfold Float32.to_Q. destruct (0 <=? e) eqn:He.
  - apply Z.leb_le in He.
    assert (0 < Zpos m * 2 ^ e)
      by (apply Z.mul_pos_pos; [lia | apply Z.pow_pos_nonneg; lia]).
    unfold inject_Z, Qabs. f_equal. destruct s; unfold cond_Zopp; lia.
  - unfold Qabs. f_equal. destruct s; reflexivity.
Qed.

Lemma pow_pos_Z e : e < 0 -> Zpos (2 ^ Z.to_pos (- e)) = 2 ^ (- e).
Proof.
  intros He. rewrite Pos2Z.inj_pow. f_equal. rewrite Z2Pos.id; lia.
Qed.

(** The floating-point test [|x| <= 5] decides the same inequality on the
    number [x] denotes. *)
Lemma dead_band_threshold x :
  valid x = true -> Float32.is_finite x = true ->
  (SFleb (SFabs x) (Float32.of_Z 5) = true <->
   (Qabs (Float32.to_Q x) <= 5)%Q).
Proof.
  intros Hv Hf. rewrite five_repr.
  destruct x as [s | s | | s m e]; try discriminate.
  - simpl. split; [intros _; discriminate | reflexivity].
  - destruct (valid_finite_bounds s m e Hv) as [Hsmall Hbig].
    rewrite Qabs_to_Q_finite.
    unfold SFleb, SFabs, SFcompare.
    destruct (Z.compare_spec e (-21)) as [He | He | He].
    + subst e. simpl (0 <=? -21). cbv iota.
      unfold Qle; simpl Qnum; simpl Qden.
      change (Z.pos (2 ^ 21)) with 2097152.
      change (PosDef.Pos.compare_cont Eq m 10485760)
        with (Pos.compare m 10485760).
      destruct (Pos.compare_spec m 10485760); split;
        intros; try discriminate; try reflexivity; lia.
    + specialize (Hsmall He).
      destruct (Z.leb_spec 0 e); [lia |].
      split; [intros _ | reflexivity].
      unfold Qle; simpl Qnum; simpl Qden. rewrite pow_pos_Z by lia.
      assert (Hp : 2 ^ 22 <= 2 ^ (- e)) by (apply Z.pow_le_mono_r; lia).
      change (2 ^ 24) with 16777216 in Hsmall.
      change (2 ^ 22) with 4194304 in Hp. lia.
    + specialize (Hbig He). change (2 ^ 23) with 8388608 in Hbig.
      split; [discriminate |].
      intros Hq. exfalso.
      destruct (Z.leb_spec 0 e).
      * change (Z.pos m * 2 ^ e * 1 <= 5 * 1) in Hq.
        assert (1 <= 2 ^ e) by (apply (Z.pow_le_mono_r 2 0 e); lia).
        assert (Z.pos m * 1 <= Z.pos m * 2 ^ e)
          by (apply Z.mul_le_mono_nonneg_l; lia).
        lia.
      * unfold Qle in Hq; simpl Qnum in Hq; simpl Qden in Hq.
        rewrite pow_pos_Z in Hq by lia.
        assert (Hp : 2 ^ (- e) <= 2 ^ 20) by (apply Z.pow_le_mono_r; lia).
        change (2 ^ 20) with 1048576 in Hp. lia.
Qed.

(** Arduino's [abs] macro and the IEEE absolute value pass the threshold
    test on the same floats (they differ on +0 only). *)
Lemma abs_macro_threshold x :
  Float32.leb (abs_macro x) (Float32.of_Z 5) =
  SFleb (SFabs x) (Float32.of_Z 5).
Proof.
  destruct x as [s | s | | s m e]; try destruct s; reflexivity.
Qed.

End Binary32.

Section Rolling_window.

Lemma replace_nth_length n v a : length (replace_nth n v a) = length a.
Proof.
  revert n. induction a as [| h t IH]; intros [| n]; simpl; auto.
Qed.

Lemma replace_nth_other n v a j :
  j <> n -> nth j (replace_nth n v a) 0 = nth j a 0.
Proof.
  revert n j. induction a as [| h t IH]; intros [| n] [| j] H; simpl; auto;
    try congruence.
Qed.


Lemma array_set_length a i v : length (array_set a i v) = length a.
Proof.
  unfold array_set.
  destruct ((0 <=? i) && (i <? Z.of_nat (length a))); auto.
  apply replace_nth_length.
Qed.

Lemma array_set_other a i v j :
  0 <= i -> j <> Z.to_nat i -> nth j (array_set a i v) 0 = nth j a 0.
Proof.
  intros Hi Hj. unfold array_set.
  destruct ((0 <=? i) && (i <? Z.of_nat (length a))); auto.
  apply replace_nth_other. exact Hj.
Qed.

Lemma next_index_mod5 i : 0 <= i <= 4 -> next_index i = (i + 1) mod 5.
Proof.
  intros H.
  assert (E : i = 0 \/ i = 1 \/ i = 2 \/ i = 3 \/ i = 4) by lia.
  destruct E as [-> | [-> | [-> | [-> | ->]]]]; reflexivity.
Qed.

Lemma of_nat_succ_mod5 k :
  (Z.of_nat (k mod 5) + 1) mod 5 = Z.of_nat ((k + 1) mod 5).
Proof.
  rewrite !Nat2Z.inj_mod, Nat2Z.inj_add.
  rewrite Z.add_mod_idemp_l by discriminate. reflexivity.
Qed.

Lemma push_window_ok k g us :
  currIndex g = Z.of_nat (k mod 5) ->
  length (filterValues g) = 5%nat ->
  (forall j, (k <= j < 5)%nat -> nth j (filterValues g) 0 = 0) ->
  let g' := set_filter (array_set (filterValues g) (currIndex g) us)
                       (next_index (currIndex g)) g in
  currIndex g' = Z.of_nat ((k + 1) mod 5) /\
  length (filterValues g') = 5%nat /\
  (forall j, (k + 1 <= j < 5)%nat -> nth j (filterValues g') 0 = 0).
Proof.
  intros Hi Hlen Hz. simpl.
  assert (Hk : (k mod 5 < 5)%nat) by (apply Nat.mod_upper_bound; discriminate).
  repeat split.
  - rewrite next_index_mod5 by lia. rewrite Hi. apply of_nat_succ_mod5.
  - rewrite array_set_length. exact Hlen.
  - intros j Hj. rewrite array_set_other.
    + apply Hz. lia.
    + lia.
    + rewrite Hi, Nat2Z.id. rewrite Nat.mod_small by lia. lia.
Qed.

End Rolling_window.

Section Interleaving.


Lemma motor_commands_app o1 o2 :
  motor_commands (o1 ++ o2) = (motor_commands o1 + motor_commands o2)%nat.
Proof.
  unfold motor_commands. rewrite filter_app, length_app. reflexivity.
Qed.

Lemma step_pc_agrees c e : pc_agrees c -> pc_agrees (fst (step c e)).
Proof.
  destruct c as [p g]. unfold pc_agrees. destruct e as [icr | now]; simpl.
  - unfold ISR_TIMER3_CAPT.
    destruct p; simpl; intros H; try rewrite H; simpl; auto.
  - unfold main_step; simpl.
    destruct p; simpl; intros H; auto.
    + unfold ping_due.
      destruct (PING_INTERVAL <=? _); simpl; auto.
      destruct (pulseState g) eqn:Hs; simpl; auto.
    + destruct (pulseState g) eqn:Hs; simpl; auto.
Qed.

Lemma step_legal c e : pc_agrees c -> legal_step c e (fst (step c e)).
Proof.
  destruct c as [p g]. unfold pc_agrees, legal_step.
  destruct e as [icr | now]; simpl.
  - unfold ISR_TIMER3_CAPT. intros _.
    destruct (pulseState g) eqn:Hs; simpl; auto.
  - unfold main_step; simpl.
    destruct p; simpl; intros H; auto.
    + destruct (ping_due _ g); reflexivity.
    + destruct (pulseState g) eqn:Hs; simpl; congruence.
Qed.

Lemma arm_capture_armed g : armed_for true (arm_capture g).
Proof.
  unfold armed_for, arm_capture, set_TCCR3B, set_TIMSK3, set_TIFR3.
  cbn [TIMSK3 TCCR3B]. rewrite !Z.lor_spec. split; apply orb_true_r.
Qed.

Local Opaque Z.land Z.lor Z.ldiff Z.testbit.

Lemma step_capture_armed c e :
  pc_agrees c -> capture_armed c -> capture_armed (fst (step c e)).
Proof.
  destruct c as [p g]. unfold pc_agrees, capture_armed, armed_for.
  destruct e as [icr | now]; simpl.
  - unfold ISR_TIMER3_CAPT. intros Hpc [Hp Hs].
    destruct (pulseState g) eqn:E; simpl; rewrite ?E; auto.
    destruct p; try discriminate; split; auto;
      rewrite Z.land_spec; destruct Hs as [Hs _]; split; auto;
      apply andb_false_r.
  - unfold main_step; simpl. intros Hpc [Hp Hs].
    destruct p; simpl; auto.
    + unfold ping_due.
      destruct (PING_INTERVAL <=? _); simpl; auto.
      destruct (pulseState g) eqn:E; simpl; rewrite ?E; auto.
      split; [apply (arm_capture_armed (set_lastPing (AVR.u32 now) g)) | auto].
    + destruct (pulseState g) eqn:E; simpl; rewrite ?E; auto.
Qed.

Local Transparent Z.land Z.lor Z.ldiff Z.testbit.

Lemma hardware_ok_run evs : forall sc, hardware_ok sc -> hardware_ok (run sc evs).
Proof.
  induction evs as [| e evs IH]; intros sc H; simpl; auto.
  apply IH. destruct sc as [st c]. destruct H as [Hpc Ha].
  unfold hardware_ok, observed_step.
  pose proof (step_pc_agrees c e Hpc). pose proof (step_capture_armed c e Hpc Ha).
  destruct (step c e) as [c' o]. simpl in *. auto.
Qed.

Lemma init_hardware_ok regs t0 : hardware_ok (init regs t0).
Proof.
  destruct regs as [[[a b] m] f].
  unfold hardware_ok, pc_agrees, capture_armed; simpl. auto.
Qed.

Lemma phase_successor s n :
  phase s = (n mod 4)%nat -> phase (successor s) = ((n + 1) mod 4)%nat.
Proof.
  intros H. rewrite <- Nat.Div0.add_mod_idemp_l, <- H.
  destruct s; reflexivity.
Qed.



Lemma counts_agree_step sc e :
  counts_agree sc -> counts_agree (observed_step sc e).
Proof.
  destruct sc as [st [p g]]. unfold counts_agree, observed_step.
  intros (Hpc & Hph & Hpi & Hmo).
  destruct (step (mkConfig p g) e) as [c' o] eqn:Hstep.
  assert (Hpc' : pc_agrees c').
  { replace c' with (fst (step (mkConfig p g) e)) by (rewrite Hstep; reflexivity).
    apply step_pc_agrees. exact Hpc. }
  split; [exact Hpc' |].
  unfold pc_agrees in Hpc. clear Hpc'.
  destruct e as [icr | now]; simpl in Hstep.
  - (* the interrupt *)
    unfold ISR_TIMER3_CAPT in Hstep.
    unfold observe, completes_capture, calls_CommandPing, in_flight, pending
      in *; simpl in *.
    destruct (pulseState g) eqn:Hs; inversion Hstep; subst; clear Hstep;
      simpl; rewrite ?Hs; simpl; rewrite ?app_nil_r.
    + repeat split; try lia. rewrite Nat.add_0_r. exact Hph.
    + repeat split.
      * apply (phase_successor PLS_WAITING_LOW). exact Hph.
      * destruct p; simpl in *; try discriminate; lia.
      * destruct p; simpl in *; try discriminate; lia.
    + repeat split.
      * apply (phase_successor PLS_WAITING_HIGH). exact Hph.
      * destruct p; simpl in *; try discriminate; lia.
      * destruct p; simpl in *; try discriminate; lia.
    + repeat split; try lia. rewrite Nat.add_0_r. exact Hph.
  - (* loop() *)
    unfold main_step in Hstep; simpl in Hstep.
    unfold observe, completes_capture, calls_CommandPing, in_flight, pending
      in *; simpl in *.
    destruct p; simpl in *.
    + unfold ping_due in *.
      destruct (PING_INTERVAL <=? AVR.u32 (AVR.u32 now - lastPing g));
        destruct (pulseState g) eqn:Hs; simpl in *;
        inversion Hstep; subst; clear Hstep; simpl; rewrite ?Hs; simpl;
        rewrite ?app_nil_r, ?Nat.add_0_r; repeat split; auto; lia.
    + inversion Hstep; subst; clear Hstep; simpl. rewrite Hpc in *; simpl.
      rewrite ?app_nil_r. repeat split; try lia.
      apply (phase_successor PLS_IDLE). exact Hph.
    + inversion Hstep; subst; clear Hstep; simpl.
      rewrite motor_commands_app. simpl.
      destruct (pulseState g) eqn:Hs; simpl;
        rewrite ?Nat.add_0_r; repeat split; auto; lia.
    + destruct (pulseState g) eqn:Hs; inversion Hstep; subst; clear Hstep;
        simpl; rewrite ?Hs; simpl; rewrite ?app_nil_r, ?Nat.add_0_r;
        repeat split; auto; lia.
    + inversion Hstep; subst; clear Hstep; simpl. rewrite Hpc in *; simpl.
      rewrite ?app_nil_r. repeat split; try lia.
      apply (phase_successor PLS_CAPTURED). exact Hph.
    + inversion Hstep; subst; clear Hstep; simpl. rewrite Hpc in *; simpl.
      rewrite motor_commands_app. simpl.
      rewrite ?Nat.add_0_r. repeat split; auto; lia.
Qed.

Lemma window_ok_step sc e :
  window_ok sc -> window_ok (observed_step sc e).
Proof.
  destruct sc as [st [p g]]. unfold window_ok, observed_step.
  intros H.
  destruct e as [icr | now]; simpl.
  - unfold ISR_TIMER3_CAPT.
    destruct (pulseState g); simpl; rewrite app_nil_r; exact H.
  - unfold main_step; simpl.
    destruct p; simpl; rewrite ?app_nil_r; try exact H.
    + destruct (ping_due _ g); simpl; rewrite app_nil_r; exact H.
    + rewrite motor_commands_app; simpl. rewrite Nat.add_0_r. exact H.
    + destruct (pulseState g); simpl; rewrite app_nil_r; exact H.
    + rewrite motor_commands_app; simpl.
      destruct H as (Hi & Hlen & Hz).
      apply (push_window_ok _ g _ Hi Hlen Hz).
Qed.

Lemma schedule_ok_step sc e :
  schedule_ok sc ->
  chronological (clock (fst sc)) [e] = true ->
  schedule_ok (observed_step sc e).
Proof.
  destruct sc as [st [p g]]. unfold schedule_ok, observed_step.
  intros [Hl Hc] Ht.
  destruct e as [icr | now]; simpl in *.
  - unfold ISR_TIMER3_CAPT.
    destruct (pulseState g); simpl; auto.
  - rewrite andb_true_r in Ht. apply Z.leb_le in Ht.
    unfold main_step, calls_CommandPing; simpl.
    destruct p; simpl; try (split; [exact Hl | lia]).
    + destruct (ping_due (AVR.u32 now) g) eqn:Hd; simpl; rewrite ?Hd;
        split; auto; lia.
    + destruct (pulseState g); simpl; split; auto; lia.
Qed.

Lemma counts_agree_run evs : forall sc,
  counts_agree sc -> counts_agree (run sc evs).
Proof.
  induction evs as [| e evs IH]; intros sc H; simpl; auto.
  apply IH, counts_agree_step, H.
Qed.

Lemma window_ok_run evs : forall sc,
  window_ok sc -> window_ok (run sc evs).
Proof.
  induction evs as [| e evs IH]; intros sc H; simpl; auto.
  apply IH, window_ok_step, H.
Qed.

Lemma clock_step sc e :
  clock (fst (observed_step sc e)) =
  match e with Main now => now | Interrupt _ => clock (fst sc) end.
Proof.
  destruct sc as [st c]. unfold observed_step.
  destruct (step c e) as [c' o]. destruct e; reflexivity.
Qed.

Lemma schedule_ok_run evs : forall sc,
  schedule_ok sc ->
  chronological (clock (fst sc)) evs = true ->
  schedule_ok (run sc evs).
Proof.
  induction evs as [| e evs IH]; intros sc H Ht; simpl; auto.
  apply IH.
  - apply schedule_ok_step; auto.
    destruct e; simpl in *; auto.
    apply andb_true_iff in Ht. destruct Ht as [Ht _]. now rewrite Ht.
  - rewrite clock_step. destruct e; simpl in Ht; auto.
    apply andb_true_iff in Ht. tauto.
Qed.

Lemma chronological_app t evs1 evs2 :
  chronological t (evs1 ++ evs2) = true -> chronological t evs1 = true.
Proof.
  revert t. induction evs1 as [| e evs IH]; intros t H; auto.
  destruct e; simpl in *; auto.
  apply andb_true_iff in H. destruct H as [H1 H2].
  rewrite H1. simpl. eapply IH, H2.
Qed.

Lemma chronological_last evs : forall sc e,
  chronological (clock (fst sc)) (evs ++ [e]) = true ->
  chronological (clock (fst (run sc evs))) [e] = true.
Proof.
  induction evs as [| a evs IH]; intros sc e H; auto.
  simpl. apply IH. rewrite clock_step.
  destruct a; simpl in H; auto.
  apply andb_true_iff in H. tauto.
Qed.

Lemma init_counts_agree regs t0 : counts_agree (init regs t0).
Proof.
  destruct regs as [[[a b] m] f]. unfold counts_agree; simpl.
  unfold pc_agrees, in_flight, pending; simpl. auto.
Qed.

Lemma init_window_ok regs t0 : window_ok (init regs t0).
Proof.
  destruct regs as [[[a b] m] f]. unfold window_ok; simpl.
  repeat split; auto.
  intros [| [| [| [| [| j]]]]] Hj; simpl; auto; lia.
Qed.

Lemma init_schedule_ok regs t0 : schedule_ok (init regs t0).
Proof.
  destruct regs as [[[a b] m] f]. unfold schedule_ok; simpl.
  split; [reflexivity | lia].
Qed.

Lemma init_clock regs t0 : clock (fst (init regs t0)) = t0.
Proof. destruct regs as [[[a b] m] f]. reflexivity. Qed.

(** Runs of [loop()] that no interrupt cuts are the sequential [loop]. *)
Lemma loop_as_steps st now g :
  exists n, (n <= 6)%nat /\
    let sc := run (st, mkConfig AtSchedule g) (repeat (Main now) n) in
    snd sc = mkConfig AtSchedule (fst (loop now g)) /\
    log (fst sc) = log st ++ snd (loop now g).
Proof.
  unfold loop, loop_schedule, loop_consume, CommandPing.
  destruct (ping_due (AVR.u32 now) g) eqn:Hd.
  - assert (Hs : pulseState g = PLS_IDLE).
    { unfold ping_due in Hd. apply andb_true_iff in Hd.
      destruct Hd as [_ Hd]. destruct (pulseState g); auto; discriminate. }
    exists 4%nat. split; [lia |].
    simpl. repeat (unfold main_step; simpl; rewrite ?Hd; simpl).
    rewrite !app_nil_r. split; reflexivity.
  - destruct (pulseState g) eqn:Hs.
    1-3: exists 2%nat; split; [lia |]; simpl;
      repeat (unfold main_step; simpl; rewrite ?Hd, ?Hs; simpl);
      rewrite !app_nil_r; split; reflexivity.
    exists 4%nat. split; [lia |].
    simpl. repeat (unfold main_step; simpl; rewrite ?Hd, ?Hs; simpl).
    rewrite !app_nil_r. split; reflexivity.
Qed.

End Interleaving.

(** ** The capture state machine *)

(** C1.  In every run of [loop()] interleaved with capture interrupts,
    started in the state [setup()] leaves, [pulseState] only moves along
    the cycle PLS_IDLE -> PLS_WAITING_LOW -> PLS_WAITING_HIGH ->
    PLS_CAPTURED -> PLS_IDLE: each step keeps it or makes the one
    transition its place in the sketch is responsible for (CommandPing:
    idle to waiting-low; the interrupt: waiting-low to waiting-high and
    waiting-high to captured; the consuming branch of [loop()]: captured to
    idle), and the position in the cycle is the number of changes so far
    modulo 4, so no transition is skipped or taken twice.  In
    PLS_WAITING_LOW the capture hardware is armed for a rising edge and in
    PLS_WAITING_HIGH for a falling edge, so these are the edges that move
    the state on. *)
Theorem capture_cycle regs t0 evs :
  let st := fst (run (init regs t0) evs) in
  let c := snd (run (init regs t0) evs) in
  (forall e, legal_step c e (fst (step c e))) /\
  (forall e, let s' := pulseState (mem (fst (step c e))) in
             s' = pulseState (mem c) \/ s' = successor (pulseState (mem c))) /\
  phase (pulseState (mem c)) = (changes st mod 4)%nat /\
  (pulseState (mem c) = PLS_WAITING_LOW -> armed_for true (mem c)) /\
  (pulseState (mem c) = PLS_WAITING_HIGH -> armed_for false (mem c)).
Proof.
  intros st c.
  pose proof (counts_agree_run evs _ (init_counts_agree regs t0)) as H.
  pose proof (hardware_ok_run evs _ (init_hardware_ok regs t0)) as Hw.
  unfold counts_agree in H. unfold hardware_ok in Hw. fold c in Hw.
  replace (run (init regs t0) evs) with (st, c) in H
    by (unfold st, c; destruct (run (init regs t0) evs); reflexivity).
  destruct H as (Hpc & Hph & _). destruct Hw as (_ & _ & Ha).
  split; [| split; [| split; [| split]]].
  - intros e. apply step_legal, Hpc.
  - intros e. pose proof (step_legal c e Hpc) as L.
    unfold legal_step in L. simpl.
    destruct e as [icr | now].
    + destruct (pulseState (mem c)); rewrite L; simpl; auto.
    + destruct (pc c); try (left; exact L);
        destruct L as [-> ->]; right; reflexivity.
  - exact Hph.
  - intros Hs. rewrite Hs in Ha. exact Ha.
  - intros Hs. rewrite Hs in Ha. exact Ha.
Qed.

(** After the two steps of [loop()] that command a ping the state is
    PLS_WAITING_LOW, and after the first interrupt PLS_WAITING_HIGH. *)
Lemma capture_cycle_witness :
  armed_for true
    (mem (snd (run (init (0, 3, 0, 0) 0) [Main 100; Main 100]))) /\
  armed_for false
    (mem (snd (run (init (0, 3, 0, 0) 0)
                   [Main 100; Main 100; Main 100; Interrupt 1000]))).
Proof.
  split.
  - apply (capture_cycle (0, 3, 0, 0) 0 [Main 100; Main 100]). reflexivity.
  - apply (capture_cycle (0, 3, 0, 0) 0
             [Main 100; Main 100; Main 100; Interrupt 1000]). reflexivity.
Defined.

(** C10.  The capture interrupt served while [pulseState] is PLS_IDLE or
    PLS_CAPTURED leaves every global and register as it was; it changes
    [pulseStart], [pulseEnd] or [pulseState] only from PLS_WAITING_LOW or
    PLS_WAITING_HIGH. *)
Theorem stale_edge_ignored icr g :
  (pulseState g = PLS_IDLE \/ pulseState g = PLS_CAPTURED ->
   ISR_TIMER3_CAPT icr g = g) /\
  (pulseStart (ISR_TIMER3_CAPT icr g) <> pulseStart g \/
   pulseEnd (ISR_TIMER3_CAPT icr g) <> pulseEnd g \/
   pulseState (ISR_TIMER3_CAPT icr g) <> pulseState g ->
   pulseState g = PLS_WAITING_LOW \/ pulseState g = PLS_WAITING_HIGH).
Proof.
  unfold ISR_TIMER3_CAPT. split.
  - intros [H | H]; rewrite H; reflexivity.
  - destruct (pulseState g) eqn:Hs; auto; intros [H | [H | H]];
      simpl in H; congruence.
Qed.

Lemma stale_edge_ignored_witness :
  ISR_TIMER3_CAPT 4242 (boot 0 3 0 0) = boot 0 3 0 0.
Proof.
  apply (proj1 (stale_edge_ignored 4242 (boot 0 3 0 0))).
  left. reflexivity.
Defined.

(** ** The ping scheduler *)

(** C2.  In every run, [loop()] calls CommandPing only with [pulseState]
    equal to PLS_IDLE and, time not running backwards, at least
    PING_INTERVAL = 100 ms after the previous call (after [setup()] for the
    first one); and the number of calls never exceeds the number of
    completed captures plus one. *)
Theorem ping_backpressure regs t0 evs :
  let st := fst (run (init regs t0) evs) in
  let c := snd (run (init regs t0) evs) in
  (forall now,
     chronological t0 (evs ++ [Main now]) = true ->
     calls_CommandPing c (Main now) = true ->
     pulseState (mem c) = PLS_IDLE /\ pinged_at st + PING_INTERVAL <= now) /\
  (pings st <= captures st + 1)%nat.
Proof.
  intros st c. split.
  - intros now Ht Hcall.
    assert (Hc : chronological (clock (fst (init regs t0))) (evs ++ [Main now])
                 = true) by (rewrite init_clock; exact Ht).
    pose proof (schedule_ok_run evs _ (init_schedule_ok regs t0)
                  (chronological_app _ _ _ Hc)) as Hs.
    pose proof (chronological_last evs _ _ Hc) as Hl.
    fold st in Hl. unfold schedule_ok in Hs.
    replace (run (init regs t0) evs) with (st, c) in Hs
      by (unfold st, c; destruct (run (init regs t0) evs); reflexivity).
    destruct Hs as [Hlast Hle].
    simpl in Hl. rewrite andb_true_r in Hl. apply Z.leb_le in Hl.
    unfold calls_CommandPing in Hcall.
    destruct (pc c); try discriminate.
    unfold ping_due in Hcall. apply andb_true_iff in Hcall.
    destruct Hcall as [Hgap Hidle].
    split.
    + destruct (pulseState (mem c)); auto; discriminate.
    + apply Z.leb_le in Hgap. rewrite Hlast, u32_sub_u32 in Hgap.
      pose proof (u32_le (now - pinged_at st)). lia.
  - pose proof (counts_agree_run evs _ (init_counts_agree regs t0)) as H.
    unfold counts_agree in H.
    replace (run (init regs t0) evs) with (st, c) in H
      by (unfold st, c; destruct (run (init regs t0) evs); reflexivity).
    destruct H as (_ & _ & Hp & _). rewrite Hp.
    unfold in_flight.
    destruct (pc c), (pulseState (mem c)); lia.
Qed.

Lemma ping_backpressure_witness :
  let st := fst (run (init (0, 3, 0, 0) 0) one_cycle) in
  let c := snd (run (init (0, 3, 0, 0) 0) one_cycle) in
  pulseState (mem c) = PLS_IDLE /\ pinged_at st + PING_INTERVAL <= 200.
Proof.
  apply (proj1 (ping_backpressure (0, 3, 0, 0) 0 one_cycle) 200);
    vm_compute; reflexivity.
Defined.

(** ** Pulse length *)

Lemma loop_consume_captured now g :
  pulseState g = PLS_CAPTURED ->
  loop_consume now g = process_sample now (set_pulseState PLS_IDLE g).
Proof. intros H. unfold loop_consume. rewrite H. reflexivity. Qed.

(** C3.  The pulse length is the 16-bit wrap-around difference
    [pulseEnd - pulseStart]: for a start count of 65500 and an end count of
    100 it is 136, and whenever the free-running counter advanced by less
    than 65536 counts between the two edges the interrupt latched, it is
    the number of counts elapsed, rollover or not. *)
Theorem wraparound_duration :
  (forall g, pulseLengthTimerCounts g = (pulseEnd g - pulseStart g) mod 65536) /\
  (forall g, pulseStart g = 65500 -> pulseEnd g = 100 ->
             pulseLengthTimerCounts g = 136) /\
  (forall g rise fall,
     pulseState g = PLS_WAITING_LOW ->
     0 <= fall - rise < 65536 ->
     let g' := ISR_TIMER3_CAPT fall (ISR_TIMER3_CAPT rise g) in
     pulseState g' = PLS_CAPTURED /\ pulseLengthTimerCounts g' = fall - rise).
Proof.
  split; [| split].
  - reflexivity.
  - intros g Hs He. unfold pulseLengthTimerCounts. rewrite Hs, He. reflexivity.
  - intros g rise fall Hw Hd. unfold ISR_TIMER3_CAPT. rewrite Hw. simpl.
    split; [reflexivity |].
    unfold pulseLengthTimerCounts; simpl.
    rewrite u16_sub_u16. apply u16_small. exact Hd.
Qed.

Lemma wraparound_duration_witness :
  let g := set_pulseState PLS_WAITING_LOW (boot 0 3 0 0) in
  pulseLengthTimerCounts (set_pulseEnd 100 (set_pulseStart 65500 g)) = 136 /\
  pulseLengthTimerCounts
    (ISR_TIMER3_CAPT (65536 + 100) (ISR_TIMER3_CAPT 65500 g)) = 136.
Proof.
  destruct wraparound_duration as (_ & Hex & Hgen).
  split.
  - apply Hex; reflexivity.
  - apply (Hgen (set_pulseState PLS_WAITING_LOW (boot 0 3 0 0)) 65500 65636).
    + reflexivity.
    + lia.
Defined.

(** ** Consumption of a captured sample *)

(** C7.  Consuming a captured sample leaves [pulseState] at PLS_IDLE and
    commands the motors once; the consuming branch of [loop()] entered in
    any other state reads nothing, outputs nothing and leaves every global
    (window and index included) as it was, so a second pass after a
    consumption does nothing; and over any run the motor commands issued
    never outnumber the captures completed. *)
Theorem consume_once :
  (forall now g,
     pulseState g = PLS_CAPTURED ->
     pulseState (fst (loop_consume now g)) = PLS_IDLE /\
     motor_commands (snd (loop_consume now g)) = 1%nat) /\
  (forall now g,
     pulseState g <> PLS_CAPTURED -> loop_consume now g = (g, [])) /\
  (forall now now' g,
     pulseState g = PLS_CAPTURED ->
     loop_consume now' (fst (loop_consume now g)) =
     (fst (loop_consume now g), [])) /\
  (forall regs t0 evs,
     let st := fst (run (init regs t0) evs) in
     (motor_commands (log st) <= captures st)%nat).
Proof.
  assert (Hidle : forall now g, pulseState g <> PLS_CAPTURED ->
                                loop_consume now g = (g, [])).
  { intros now g H. unfold loop_consume.
    destruct (pulseState g); auto; congruence. }
  repeat split.
  - rewrite loop_consume_captured by assumption. reflexivity.
  - rewrite loop_consume_captured by assumption. reflexivity.
  - exact Hidle.
  - intros now now' g H. apply Hidle.
    rewrite loop_consume_captured by assumption. simpl. discriminate.
  - intros regs t0 evs st.
    pose proof (counts_agree_run evs _ (init_counts_agree regs t0)) as H.
    unfold counts_agree in H.
    destruct (run (init regs t0) evs) as [st' c] eqn:E.
    unfold st; simpl. destruct H as (_ & _ & _ & H). lia.
Qed.

Lemma consume_once_witness :
  let g := set_pulseState PLS_CAPTURED (boot 0 3 0 0) in
  (pulseState (fst (loop_consume 7 g)) = PLS_IDLE /\
   motor_commands (snd (loop_consume 7 g)) = 1%nat) /\
  loop_consume 8 (boot 0 3 0 0) = (boot 0 3 0 0, []) /\
  loop_consume 8 (fst (loop_consume 7 g)) = (fst (loop_consume 7 g), []).
Proof.
  destruct consume_once as (H1 & H2 & H3 & _).
  split; [| split].
  - apply H1. reflexivity.
  - apply H2. discriminate.
  - apply H3. reflexivity.
Defined.

(** ** The rolling window *)

(** C9.  In every run the write index stays within 0..4 and equals the
    number of samples stored so far modulo 5, the window has exactly five
    slots, and the slots not yet written are still zero; on 0..4 the update
    [currIndex += (currIndex == 4) ? -4 : 1] is the increment modulo 5. *)
Theorem window_index_wraps :
  (forall regs t0 evs,
     let st := fst (run (init regs t0) evs) in
     let g := mem (snd (run (init regs t0) evs)) in
     let k := motor_commands (log st) in
     0 <= currIndex g <= 4 /\
     currIndex g = Z.of_nat k mod 5 /\
     length (filterValues g) = 5%nat /\
     (forall j, (k <= j < 5)%nat -> nth j (filterValues g) 0 = 0)) /\
  (forall i, 0 <= i <= 4 ->
             next_index i = (i + 1) mod 5 /\ 0 <= next_index i <= 4) /\
  (forall regs t0,
     filterValues (mem (snd (init regs t0))) = [0; 0; 0; 0; 0]).
Proof.
  split; [| split].
  - intros regs t0 evs st g k.
    pose proof (window_ok_run evs _ (init_window_ok regs t0)) as H.
    unfold window_ok in H.
    destruct (run (init regs t0) evs) as [st' c] eqn:E.
    unfold st, g, k; simpl. destruct H as (Hi & Hl & Hz).
    rewrite Hi, Nat2Z.inj_mod.
    pose proof (Z.mod_pos_bound (Z.of_nat (motor_commands (log st'))) 5).
    repeat split; auto; simpl in *; lia.
  - intros i H. rewrite next_index_mod5 by exact H.
    pose proof (Z.mod_pos_bound (i + 1) 5). split; [reflexivity | lia].
  - intros [[[a b] m] f] t0. reflexivity.
Qed.

Lemma window_index_wraps_witness :
  (next_index 4 = (4 + 1) mod 5 /\ 0 <= next_index 4 <= 4) /\
  nth 1 (filterValues (mem (snd (run (init (0, 3, 0, 0) 0) one_cycle)))) 0 = 0.
Proof.
  destruct window_index_wraps as (Hrun & Hidx & _).
  split.
  - apply Hidx. lia.
  - apply (Hrun (0, 3, 0, 0) 0 one_cycle). vm_compute. lia.
Defined.

(** ** Sorting *)

Section Sorting.

Lemma u16_u32 z : AVR.u16 (AVR.u32 z) = AVR.u16 z.
Proof.
  unfold AVR.u16, AVR.u32, AVR.wrap.
  apply Z.mod_mod_divide. exists (2 ^ 16). reflexivity.
Qed.

Lemma cmpfunc_small a b :
  0 <= a < 32768 -> 0 <= b < 32768 -> cmpfunc a b = a - b.
Proof.
  intros Ha Hb. unfold cmpfunc, AVR.to_int. rewrite u16_u32.
  apply (to_int_small (a - b)). lia.
Qed.

Lemma cmpfunc_consistent l : small l -> consistent cmpfunc l.
Proof.
  intros Hs. split.
  - intros a b Ha Hb. rewrite !cmpfunc_small by auto.
    rewrite <- Z.sgn_opp. f_equal. lia.
  - intros a b c Ha Hb Hc. rewrite !cmpfunc_small by auto. lia.
Qed.

Lemma ascending_cmpfunc_le l : small l -> ascending cmpfunc l -> Sorted Z.le l.
Proof.
  unfold ascending. intros Hs H. induction H as [| a l Hl IH Hd].
  - constructor.
  - constructor.
    + apply IH. intros v Hv. apply Hs. now right.
    + destruct Hd as [| b l' Hab]; constructor.
      rewrite cmpfunc_small in Hab; [lia | |]; apply Hs; simpl; auto.
Qed.

Lemma sorted_le_head a l : Sorted Z.le (a :: l) -> forall b, In b l -> a <= b.
Proof.
  intros H. apply Sorted_StronglySorted in H.
  - inversion H as [| ? ? _ Hall]. subst.
    intros b Hb. rewrite Forall_forall in Hall. auto.
  - intros x y z. apply Z.le_trans.
Qed.

Lemma sorted_le_unique l1 : forall l2,
  Sorted Z.le l1 -> Sorted Z.le l2 -> Permutation l1 l2 -> l1 = l2.
Proof.
  induction l1 as [| a l1 IH]; intros l2 H1 H2 P.
  - apply Permutation_nil in P. now subst.
  - destruct l2 as [| b l2].
    + apply Permutation_sym, Permutation_nil in P. discriminate.
    + assert (E : a = b).
      { assert (Ha : In a (b :: l2))
          by (eapply Permutation_in; [exact P | now left]).
        assert (Hb : In b (a :: l1))
          by (eapply Permutation_in;
              [apply Permutation_sym; exact P | now left]).
        destruct Ha as [Ha | Ha]; [now subst |].
        destruct Hb as [Hb | Hb]; [now subst |].
        pose proof (sorted_le_head _ _ H1 _ Hb).
        pose proof (sorted_le_head _ _ H2 _ Ha). lia. }
      subst b. f_equal. apply IH.
      * now inversion H1.
      * now inversion H2.
      * eapply Permutation_cons_inv, P.
Qed.

Lemma insert_by_perm cmp x l : Permutation (x :: l) (insert_by cmp x l).
Proof.
  induction l as [| y l IH]; simpl; auto.
  destruct (cmp x y <=? 0); auto.
  eapply perm_trans; [apply perm_swap |]. now constructor.
Qed.

Lemma isort_perm cmp l : Permutation l (isort cmp l).
Proof.
  induction l as [| x l IH]; simpl; auto.
  eapply perm_trans; [| apply insert_by_perm]. now constructor.
Qed.

Lemma insert_by_ascending cmp x l :
  (forall y, In y l -> cmp x y <= 0 \/ cmp y x <= 0) ->
  ascending cmp l -> ascending cmp (insert_by cmp x l).
Proof.
  unfold ascending. intros Htot H.
  induction H as [| y l Hl IH Hd]; simpl.
  - repeat constructor.
  - destruct (Z.leb_spec (cmp x y) 0) as [Hxy | Hxy].
    + repeat constructor; auto.
    + constructor.
      * apply IH. intros z Hz. apply Htot. now right.
      * destruct Hd as [| z l' Hyz]; simpl.
        -- constructor. destruct (Htot y (or_introl eq_refl)); [lia | auto].
        -- destruct (cmp x z <=? 0); constructor; auto.
           destruct (Htot y (or_introl eq_refl)); [lia | auto].
Qed.

Lemma consistent_total cmp l a b :
  consistent cmp l -> In a l -> In b l -> cmp a b <= 0 \/ cmp b a <= 0.
Proof.
  intros [Hsgn _] Ha Hb. specialize (Hsgn a b Ha Hb).
  destruct (Z.leb_spec (cmp a b) 0) as [H | H]; [now left | right].
  rewrite (Z.sgn_pos (cmp a b)) in Hsgn by lia.
  pose proof (Z.sgn_neg_iff (cmp b a)). lia.
Qed.

Lemma consistent_tail cmp x l : consistent cmp (x :: l) -> consistent cmp l.
Proof.
  intros [H1 H2]. split.
  - intros a b Ha Hb. apply H1; now right.
  - intros a b c Ha Hb Hc. apply H2; now right.
Qed.

Lemma isort_ascending cmp l : consistent cmp l -> ascending cmp (isort cmp l).
Proof.
  induction l as [| x l IH]; intros Hc; simpl.
  - constructor.
  - apply insert_by_ascending.
    + intros y Hy. apply (consistent_total cmp (x :: l)); auto.
      * now left.
      * right. eapply Permutation_in; [| exact Hy].
        apply Permutation_sym, isort_perm.
    + apply IH. eapply consistent_tail, Hc.
Qed.

Lemma isort_contract : qsort_contract isort.
Proof.
  intros cmp l Hc. split; [apply isort_perm | now apply isort_ascending].
Qed.

End Sorting.

Section With_qsort.

Variable qsort : (Z -> Z -> Z) -> list Z -> list Z.
Hypothesis qsort_ok : qsort_contract qsort.

(** What [median] does to a window of five small values, whichever
    [qsort] the C library provides. *)
Lemma median_sorts values :
  length values = 5%nat ->
  small values ->
  Permutation values (fst (median qsort values)) /\
  Sorted Z.le (fst (median qsort values)) /\
  snd (median qsort values) = nth 2 (fst (median qsort values)) 0.
Proof.
  intros Hlen Hs.
  assert (E : median qsort values =
              (qsort cmpfunc values, array_get (qsort cmpfunc values) 2)).
  { unfold median.
    rewrite firstn_all2, skipn_all2, app_nil_r by lia. reflexivity. }
  rewrite E. simpl fst. simpl snd.
  destruct (qsort_ok cmpfunc values (cmpfunc_consistent _ Hs)) as [P A].
  repeat split; auto.
  apply ascending_cmpfunc_le; auto.
  intros v Hv. apply Hs. eapply Permutation_in; [| exact Hv].
  now apply Permutation_sym.
Qed.

End With_qsort.

(** ** The filter *)

(** C5.  On the window [100,100,100,100,500] [mean] returns 180 and
    [median] returns 100. *)
Theorem filter_examples :
  mean [100; 100; 100; 100; 500] = 180 /\
  (forall qsort, qsort_contract qsort ->
                 snd (median qsort [100; 100; 100; 100; 500]) = 100).
Proof.
  split; [reflexivity |].
  intros qsort Hq.
  assert (Hs : small [100; 100; 100; 100; 500]).
  { intros v Hv. simpl in Hv. lia. }
  destruct (median_sorts qsort Hq [100; 100; 100; 100; 500] eq_refl Hs)
    as (P & S & E).
  rewrite E.
  rewrite <- (sorted_le_unique [100; 100; 100; 100; 500] _); auto.
  repeat constructor; lia.
Qed.

Lemma filter_examples_witness :
  snd (median isort [100; 100; 100; 100; 500]) = 100.
Proof.
  apply (proj2 filter_examples isort). exact isort_contract.
Defined.

(** C8 as stated fails: [median] sorts the very array it is handed.  On the
    window [5,4,3,2,1] the caller's array reads [1,2,3,4,5] afterwards. *)
Lemma median_reorders_window :
  ~ (forall qsort values,
       qsort_contract qsort -> length values = 5%nat ->
       fst (median qsort values) = values).
Proof.
  intros H.
  specialize (H isort [5; 4; 3; 2; 1] isort_contract eq_refl).
  vm_compute in H. discriminate H.
Qed.

(** C8, amended.  [median] works on the caller's array, not on a copy: for
    a window of five values below 32768 (where the 16-bit result of
    [cmpfunc] has the sign of the difference) the array is left holding the
    same values in ascending order, the value returned is the one then at
    index 2, and the window keeps its order exactly when it was ascending
    already. *)
Theorem median_sorts_in_place qsort values :
  qsort_contract qsort ->
  length values = 5%nat ->
  small values ->
  let values' := fst (median qsort values) in
  Permutation values values' /\
  Sorted Z.le values' /\
  snd (median qsort values) = nth 2 values' 0 /\
  (values' = values <-> Sorted Z.le values).
Proof.
  intros Hq Hlen Hs values'.
  destruct (median_sorts qsort Hq values Hlen Hs) as (P & S & E).
  fold values' in P, S, E.
  repeat split; auto.
  - intros Hv. rewrite <- Hv. exact S.
  - intros Hv. symmetry. apply sorted_le_unique; auto.
Qed.

Lemma median_sorts_in_place_witness :
  let values' := fst (median isort [5; 4; 3; 2; 1]) in
  Permutation [5; 4; 3; 2; 1] values' /\
  Sorted Z.le values' /\
  snd (median isort [5; 4; 3; 2; 1]) = nth 2 values' 0 /\
  (values' = [5; 4; 3; 2; 1] <-> Sorted Z.le [5; 4; 3; 2; 1]).
Proof.
  apply (median_sorts_in_place isort [5; 4; 3; 2; 1]).
  - exact isort_contract.
  - reflexivity.
  - intros v Hv. simpl in Hv. lia.
Defined.

(** ** Conversion of a pulse to a distance *)

(** C6.  With a start count of 1000 and an end count of 1500 the pulse
    length is 500 counts, that is 500 * 4 = 2000 microseconds, and the
    single-sample distance printed is the binary32 quotient 2000 / 58.0:
    within 2^-19 of 2000/58, which is 34.48 to two decimals. *)
Theorem single_sample_distance now g :
  pulseState g = PLS_CAPTURED ->
  pulseStart g = 1000 ->
  pulseEnd g = 1500 ->
  pulseLengthTimerCounts g = 500 /\
  pulseLengthUS 500 = 500 * 4 /\
  (exists filteredDistance speed,
     snd (loop_consume now g) =
     [SetEfforts speed speed;
      Telemetry (AVR.u32 now) 500 2000 (distance_cm 2000)
                filteredDistance speed]) /\
  (Qabs (Float32.to_Q (distance_cm 2000) - (2000 # 58)) <= 1 # 2 ^ 19)%Q /\
  (34475 # 1000 <= Float32.to_Q (distance_cm 2000))%Q /\
  (Float32.to_Q (distance_cm 2000) < 34485 # 1000)%Q.
Proof.
  intros Hc Hs He.
  assert (Hlen : pulseLengthTimerCounts (set_pulseState PLS_IDLE g) = 500).
  { unfold pulseLengthTimerCounts. simpl pulseEnd. simpl pulseStart.
    rewrite Hs, He. reflexivity. }
  split; [| split; [| split; [| split; [| split]]]].
  - unfold pulseLengthTimerCounts. rewrite Hs, He. reflexivity.
  - reflexivity.
  - rewrite loop_consume_captured by exact Hc.
    unfold process_sample. rewrite Hlen.
    change (pulseLengthUS 500) with 2000.
    eexists. eexists. reflexivity.
  - vm_compute. discriminate.
  - vm_compute. discriminate.
  - vm_compute. reflexivity.
Qed.

Lemma single_sample_distance_witness :
  let g := set_pulseEnd 1500 (set_pulseStart 1000
             (set_pulseState PLS_CAPTURED (boot 0 3 0 0))) in
  pulseLengthTimerCounts g = 500 /\
  (34475 # 1000 <= Float32.to_Q (distance_cm 2000))%Q /\
  (Float32.to_Q (distance_cm 2000) < 34485 # 1000)%Q.
Proof.
  intros g.
  destruct (single_sample_distance 0 g eq_refl eq_refl eq_refl)
    as (H1 & _ & _ & _ & H2 & H3).
  split; [exact H1 | split; [exact H2 | exact H3]].
Defined.

(** ** The proportional controller *)

(** C4.  For every filtered distance [d] the speed passed to the motors is
    [kp * (d - 20)] with [kp] = 10, computed in binary32 and replaced by 0
    exactly when its absolute value is at most 5.  An error of 0 gives 0; an
    error of 0.3 gives 3.0, which the dead band turns into 0; an error of
    1.0 gives 10.0, which is passed on as it is. *)
Theorem controller_dead_band :
  (Float32.to_Q kp == 10)%Q /\
  (forall d, control d =
             dead_band (Float32.mul kp (Float32.sub d (Float32.of_Z 20)))) /\
  (forall x, valid x = true -> Float32.is_finite x = true ->
             ((Qabs (Float32.to_Q x) <= 5)%Q -> dead_band x = Float32.of_Z 0) /\
             (~ (Qabs (Float32.to_Q x) <= 5)%Q -> dead_band x = x)) /\
  speed_of_err (Float32.of_Z 0) = Float32.of_Z 0 /\
  (Float32.mul kp three_tenths = Float32.of_Z 3 /\
   speed_of_err three_tenths = Float32.of_Z 0) /\
  (Float32.mul kp (Float32.of_Z 1) = Float32.of_Z 10 /\
   speed_of_err (Float32.of_Z 1) = Float32.of_Z 10) /\
  (forall now g,
     pulseState g = PLS_CAPTURED ->
     let g' := fst (loop_consume now g) in
     let speed := control (distance_cm (mean (filterValues g'))) in
     exists line, snd (loop_consume now g) = [SetEfforts speed speed; line]).
Proof.
  split; [reflexivity |].
  split.
  { intros d. unfold control, speed_of_err, dead_band.
    rewrite abs_macro_threshold. reflexivity. }
  split.
  { intros x Hv Hf. pose proof (dead_band_threshold x Hv Hf) as H.
    unfold dead_band. split; intros Hq.
    - apply H in Hq. rewrite Hq. reflexivity.
    - destruct (SFleb (SFabs x) (Float32.of_Z 5)); [| reflexivity].
      exfalso. apply Hq, H. reflexivity. }
  split; [reflexivity |].
  split; [split; reflexivity |].
  split; [split; reflexivity |].
  intros now g Hc g' speed. subst g' speed.
  rewrite loop_consume_captured by exact Hc.
  unfold process_sample. eexists. reflexivity.
Qed.

Lemma controller_dead_band_witness :
  dead_band (Float32.mul kp three_tenths) = Float32.of_Z 0 /\
  dead_band (Float32.mul kp (Float32.of_Z 1)) = Float32.mul kp (Float32.of_Z 1) /\
  (let g := set_pulseState PLS_CAPTURED (boot 0 3 0 0) in
   let speed :=
     control (distance_cm (mean (filterValues (fst (loop_consume 0 g))))) in
   exists line, snd (loop_consume 0 g) = [SetEfforts speed speed; line]).
Proof.
  destruct controller_dead_band as (_ & _ & Hband & _ & _ & _ & Hout).
  split; [| split].
  - apply (Hband (Float32.mul kp three_tenths)).
    + reflexivity.
    + reflexivity.
    + vm_compute. discriminate.
  - apply (Hband (Float32.mul kp (Float32.of_Z 1))).
    + reflexivity.
    + reflexivity.
    + vm_compute. intros H. apply H. reflexivity.
  - apply Hout. reflexivity.
Defined.
